(** * Cart completion endpoint of medusa: idempotent completion workflow

    Embedding of [packages/medusa/src/api/routes/store/carts/complete-cart.ts]
    (the [POST /carts/{id}/complete] handler) and of the price selection
    interface [IPriceSelectionStrategy], with the collaborators the handler
    resolves from its dependency container. *)

From Stdlib Require Import ZArith.
From stdpp Require Import base strings gmap list.

Local Open Scope Z_scope.
Local Open Scope string_scope.
Local Open Scope list_scope.

(** ** Effects: state passing with exceptions

    An [await]ed call either returns a value or throws; both leave a state
    behind. *)

Inductive Outcome (E A : Type) : Type :=
| returned (a : A)
| thrown (e : E).
Arguments returned {E A} a.
Arguments thrown {E A} e.

Definition Eff (S E A : Type) : Type := S -> Outcome E A * S.

Definition ret {S E A} (a : A) : Eff S E A := fun s => (returned a, s).

Definition bind {S E A B} (m : Eff S E A) (k : A -> Eff S E B) : Eff S E B :=
  fun s =>
    match m s with
    | (returned a, s') => k a s'
    | (thrown e, s') => (thrown e, s')
    end.

(** [try { m } catch (error) { h error }]: the value of [m], or whatever the
    catch block computes from the error. *)
Definition try_catch {S E A} (m : Eff S E A) (h : E -> Eff S E A) : Eff S E A :=
  fun s =>
    match m s with
    | (returned a, s') => (returned a, s')
    | (thrown e, s') => h e s'
    end.

Notation "x <- m ;; k" := (bind m (fun x => k))
  (at level 100, m at next level, right associativity).
Notation "m ;; k" := (bind m (fun _ => k))
  (at level 100, right associativity).

(** JavaScript [a || b] on a possibly undefined string: the empty string and
    [undefined] are both falsy. *)
Definition js_or (a : option string) (b : string) : string :=
  match a with
  | Some s => if decide (s = "") then b else s
  | None => b
  end.

(** ** The Express response object *)

Inductive Payload (Body : Type) : Type :=
| text (s : string)      (* res.send("...") *)
| json (b : Body).       (* res.json(...) *)
Arguments text {Body} s.
Arguments json {Body} b.

Record Response (Body : Type) : Type := mkResponse {
  statusCode : Z;
  headers : gmap string string;
  payload : option (Payload Body)
}.
Arguments mkResponse {Body}.
Arguments statusCode {Body}.
Arguments headers {Body}.
Arguments payload {Body}.

(** A response nothing has been written to yet (Node's default status). *)
Definition fresh_response {Body} : Response Body :=
  mkResponse 200 ∅ None.

(** Modelled from the spec: the recovery points of the completion workflow
    in their fixed order (4.2); the enumeration belongs to the strategy, whose
    source is missing. *)
Inductive RecoveryPoint : Type :=
| started
| tax_lines_validated
| payment_authorized
| order_created
| finished.

#[global] Instance RecoveryPoint_eq_dec : EqDecision RecoveryPoint.
Proof. solve_decision. Defined.

Section CompleteCart.

(** Payloads, thrown values, route parameters and the request context are
    opaque to the handler. *)
Variables Body Err Params Context : Type.

(** Modelled from the spec: the persisted entity [IdempotencyKey] (3), which
    the handler imports from [models]; the declaration itself is missing.
    [key_response_code] and [key_response_body] are set only when
    [recovery_point] is [finished]. *)
Record IdempotencyKey : Type := mkIdempotencyKey {
  idempotency_key : string;
  request_method : string;
  request_path : string;
  request_params : Params;
  recovery_point : RecoveryPoint;
  key_response_code : option Z;
  key_response_body : option Body;
  locked_at : option Z
}.

(** What [completionStrat.complete] resolves to. *)
Record CartCompletionResponse : Type := mkCartCompletionResponse {
  response_code : Z;
  response_body : Body
}.

Record Request : Type := mkRequest {
  params : Params;
  params_id : string;                 (* req.params.id *)
  get : string -> option string;      (* req.get(name) *)
  method : string;
  path : string;
  request_context : Context
}.

(** The state behind the services: everything reachable through
    [req.scope] (database, providers). *)
Variable World : Type.

(** [req.scope]: the dependency container the handler resolves its
    collaborators from. *)
Record Scope : Type := mkScope {
  (* manager.transaction(async (transactionManager) => ...) *)
  transaction :
    Eff World Err IdempotencyKey -> Eff World Err IdempotencyKey;
  (* idempotencyKeyService.withTransaction(tm).initializeRequest(...) *)
  initializeRequest :
    string -> string -> Params -> string -> Eff World Err IdempotencyKey;
  (* cartCompletionStrategy.complete(id, idempotencyKey, context) *)
  complete :
    string -> IdempotencyKey -> Context ->
    Eff World Err CartCompletionResponse
}.

(** What can be observed of one run of the handler besides the response. *)
Inductive Event : Type :=
| console_log (error : Err)
| complete_called (id : string) (key : IdempotencyKey) (ctx : Context).

Record HandlerState : Type := mkHandlerState {
  world : World;
  res : Response Body;
  trace : list Event
}.

Definition Handler (A : Type) : Type := Eff HandlerState Err A.

(** Run a service call against the world of the handler state. *)
Definition await {A} (m : Eff World Err A) : Handler A :=
  fun s =>
    let '(o, w) := m (world s) in
    (o, mkHandlerState w (res s) (trace s)).

Definition emit (ev : Event) : Handler unit :=
  fun s => (returned tt, mkHandlerState (world s) (res s) (trace s ++ [ev])).

Definition modify_res (f : Response Body -> Response Body) : Handler unit :=
  fun s => (returned tt, mkHandlerState (world s) (f (res s)) (trace s)).

Definition res_status (code : Z) : Handler unit :=
  modify_res (fun r => mkResponse code (headers r) (payload r)).

Definition res_setHeader (name value : string) : Handler unit :=
  modify_res (fun r =>
    mkResponse (statusCode r) (<[name := value]> (headers r)) (payload r)).

Definition res_send (s : string) : Handler unit :=
  modify_res (fun r => mkResponse (statusCode r) (headers r) (Some (text s))).

Definition res_json (b : Body) : Handler unit :=
  modify_res (fun r => mkResponse (statusCode r) (headers r) (Some (json b))).

Variable scope : Scope.

(** The exported handler, [export default async (req, res) => ...]. *)
Definition handler (req : Request) : Handler unit :=
  let id := params_id req in
  let headerKey := js_or (get req "Idempotency-Key") "" in
  r <- try_catch
         (idempotencyKey <-
            await (transaction scope
                     (initializeRequest scope headerKey (method req)
                        (params req) (path req))) ;;
          ret (Some idempotencyKey))
         (fun error =>
            emit (console_log error) ;;
            res_status 409 ;;
            res_send "Failed to create idempotency key" ;;
            ret None) ;;
  match r with
  | None => ret tt                    (* the [return] of the catch block *)
  | Some idempotencyKey =>
      res_setHeader "Access-Control-Expose-Headers" "Idempotency-Key" ;;
      res_setHeader "Idempotency-Key" (idempotency_key idempotencyKey) ;;
      emit (complete_called id idempotencyKey (request_context req)) ;;
      r <- await (complete scope id idempotencyKey (request_context req)) ;;
      res_status (response_code r) ;;
      res_json (response_body r)
  end.

(** The key initialisation as the handler performs it for [req]. *)
Definition initialize (req : Request) : Eff World Err IdempotencyKey :=
  transaction scope
    (initializeRequest scope (js_or (get req "Idempotency-Key") "")
       (method req) (params req) (path req)).

(** The response headers once the handler has announced the key. *)
Definition exposed (key : IdempotencyKey) (h : gmap string string)
  : gmap string string :=
  <["Idempotency-Key" := idempotency_key key]>
    (<["Access-Control-Expose-Headers" := "Idempotency-Key"]> h).

Definition is_complete_call (ev : Event) : bool :=
  match ev with
  | complete_called _ _ _ => true
  | console_log _ => false
  end.

(** The strategy invocations among the events a run added to the trace. *)
Definition complete_calls (t : list Event) : list Event :=
  filter (fun ev => is_complete_call ev = true) t.

(** One request: the handler starts from a response nothing was written
    to and an empty trace. *)
Definition serve (req : Request) (w : World) : Outcome Err unit * HandlerState :=
  handler req (mkHandlerState w fresh_response []).

End CompleteCart.

Arguments mkIdempotencyKey {Body Params}.
Arguments idempotency_key {Body Params}.
Arguments request_method {Body Params}.
Arguments request_path {Body Params}.
Arguments request_params {Body Params}.
Arguments recovery_point {Body Params}.
Arguments key_response_code {Body Params}.
Arguments key_response_body {Body Params}.
Arguments locked_at {Body Params}.
Arguments mkCartCompletionResponse {Body}.
Arguments response_code {Body}.
Arguments response_body {Body}.
Arguments mkRequest {Params Context}.
Arguments params {Params Context}.
Arguments params_id {Params Context}.
Arguments get {Params Context}.
Arguments method {Params Context}.
Arguments path {Params Context}.
Arguments request_context {Params Context}.
Arguments mkScope {Body Err Params Context World}.
Arguments transaction {Body Err Params Context World}.
Arguments initializeRequest {Body Err Params Context World}.
Arguments complete {Body Err Params Context World}.
Arguments console_log {Body Err Params Context}.
Arguments complete_called {Body Err Params Context}.
Arguments mkHandlerState {Body Err Params Context World}.
Arguments world {Body Err Params Context World}.
Arguments res {Body Err Params Context World}.
Arguments trace {Body Err Params Context World}.
Arguments handler {Body Err Params Context World}.
Arguments initialize {Body Err Params Context World}.
Arguments exposed {Body Params}.
Arguments is_complete_call {Body Err Params Context}.
Arguments complete_calls {Body Err Params Context}.
Arguments serve {Body Err Params Context World}.

(** ** The services behind the handler

    [IdempotencyKeyService] and the cart completion strategy are resolved by
    the handler but live in [services] and [strategies]. *)

Inductive Role : Type :=
| normal     (* persisted as in-progress progress *)
| update.    (* persisted as the final response *)

#[global] Instance Role_eq_dec : EqDecision Role.
Proof. solve_decision. Defined.

(** What the executor throws when a record is [finished] and carries no
    response: it cannot answer from it and fails the request visibly. *)
Inductive Fault : Type :=
| missing_response (token : string).

Section Workflow.

Variables Body Params Context : Type.

(** Carts, orders and payment sessions: what the step handlers act on. *)
Variable Domain : Type.

(** The persistence provider: the key records by token, next to the
    domain entities. *)
Record Persistence : Type := mkPersistence {
  keys : gmap string (IdempotencyKey Body Params);
  domain : Domain
}.

(** Modelled from the spec: [manager.transaction] of the persistence
    provider, which commits what the callback did when it returns and
    rolls it back when it throws. *)
Definition atomically {E A} (m : Eff Persistence E A) : Eff Persistence E A :=
  fun db =>
    match m db with
    | (returned a, db') => (returned a, db')
    | (thrown e, _) => (thrown e, db)
    end.

(** Modelled from the spec: token generation of the Idempotency Key Store
    (4.1), "a fresh unique token": one that no record carries and that is
    not the empty string, which stands for "no token". *)
Definition generate_token (db : Persistence) : string :=
  fresh ({[ "" ]} ∪ dom (keys db)).

Definition create (token method : string) (ps : Params) (path : string)
  : Eff Persistence Fault (IdempotencyKey Body Params) :=
  fun db =>
    let key := mkIdempotencyKey token method path ps started None None None in
    (returned key, mkPersistence (<[token := key]> (keys db)) (domain db)).

(** Modelled from the spec: [initializeRequest] of the Idempotency Key
    Store (4.1); the source of [IdempotencyKeyService] is missing. *)
Definition store_initializeRequest
    (providedKey method : string) (ps : Params) (path : string)
  : Eff Persistence Fault (IdempotencyKey Body Params) :=
  fun db =>
    if decide (providedKey = "") then
      create (generate_token db) method ps path db
    else
      match keys db !! providedKey with
      | Some existing => (returned existing, db)
      | None => create providedKey method ps path db
      end.

(** Modelled from the spec: the patch [update(key, patch)] of the store
    persists (4.1): a new recovery point and optionally the response. *)
Record Patch : Type := mkPatch {
  patch_recovery_point : RecoveryPoint;
  patch_response : option (CartCompletionResponse Body)
}.

Definition apply_patch (p : Patch) (key : IdempotencyKey Body Params)
  : IdempotencyKey Body Params :=
  match patch_response p with
  | Some r =>
      mkIdempotencyKey (idempotency_key key) (request_method key)
        (request_path key) (request_params key) (patch_recovery_point p)
        (Some (response_code r)) (Some (response_body r)) (locked_at key)
  | None =>
      mkIdempotencyKey (idempotency_key key) (request_method key)
        (request_path key) (request_params key) (patch_recovery_point p)
        (key_response_code key) (key_response_body key) (locked_at key)
  end.

Definition store_update (token : string) (p : Patch) (db : Persistence)
  : Persistence :=
  mkPersistence (alter (apply_patch p) token (keys db)) (domain db).

(** Modelled from the spec: [CompletionStepResult] (3). *)
Record CompletionStepResult : Type := mkCompletionStepResult {
  step_recovery_point : RecoveryPoint;
  role : Role;
  data : CartCompletionResponse Body
}.

(** Modelled from the spec: what a step handler hands back to the executor
    (4.2, steps 3 and 6): a result, or a failure classified as recoverable
    or terminal together with the error response. *)
Inductive StepOutcome : Type :=
| completed (r : CompletionStepResult)
| recoverable (error : CartCompletionResponse Body)
| terminal (error : CartCompletionResponse Body).

(** The handler the strategy registers for each recovery point. *)
Variable step :
  RecoveryPoint -> string -> Context -> Domain -> StepOutcome * Domain.

(** A result is the final response when its role says so or when it names
    the terminal marker. *)
Definition is_final (r : CompletionStepResult) : bool :=
  bool_decide (role r = update) || bool_decide (step_recovery_point r = finished).

Definition patch_of (r : CompletionStepResult) : Patch :=
  if is_final r then mkPatch finished (Some (data r))
  else mkPatch (step_recovery_point r) None.

(** Modelled from the spec: the Completion Step Executor (4.2) driving the
    Cart Completion Strategy (4.3), one step per invocation. A finished key
    answers from the persisted response; otherwise the handler registered
    for the key's recovery point runs and its result is persisted in the
    same transaction as the handler's own writes. A recoverable failure
    commits nothing; a terminal failure is persisted as the response. *)
Definition strategy_complete
    (cartId : string) (key : IdempotencyKey Body Params) (ctx : Context)
  : Eff Persistence Fault (CartCompletionResponse Body) :=
  fun db =>
    if decide (recovery_point key = finished) then
      match key_response_code key, key_response_body key with
      | Some code, Some body =>
          (returned (mkCartCompletionResponse code body), db)
      | _, _ => (thrown (missing_response (idempotency_key key)), db)
      end
    else
      let '(outcome, d) := step (recovery_point key) cartId ctx (domain db) in
      let token := idempotency_key key in
      match outcome with
      | completed r =>
          (returned (data r),
           store_update token (patch_of r) (mkPersistence (keys db) d))
      | recoverable error => (returned error, db)
      | terminal error =>
          (returned error,
           store_update token (mkPatch finished (Some error))
             (mkPersistence (keys db) d))
      end.

(** The dependency container of a deployment with this store and this
    strategy. *)
Definition workflow_scope : Scope Body Fault Params Context Persistence :=
  mkScope atomically store_initializeRequest strategy_complete.

End Workflow.

Arguments mkPersistence {Body Params Domain}.
Arguments keys {Body Params Domain}.
Arguments domain {Body Params Domain}.
Arguments atomically {Body Params Domain E A}.
Arguments generate_token {Body Params Domain}.
Arguments create {Body Params Domain}.
Arguments store_initializeRequest {Body Params Domain}.
Arguments mkPatch {Body}.
Arguments patch_recovery_point {Body}.
Arguments patch_response {Body}.
Arguments apply_patch {Body Params}.
Arguments store_update {Body Params Domain}.
Arguments mkCompletionStepResult {Body}.
Arguments step_recovery_point {Body}.
Arguments role {Body}.
Arguments data {Body}.
Arguments completed {Body}.
Arguments recoverable {Body}.
Arguments terminal {Body}.
Arguments is_final {Body}.
Arguments patch_of {Body}.
Arguments strategy_complete {Body Params Context Domain}.
Arguments workflow_scope {Body Params Context Domain}.

(** ** Price selection *)

Record PriceSelectionContext : Type := mkPriceSelectionContext {
  cart_id : option string;
  customer_id : option string;
  quantity : option Z;
  region_id : option string;
  currency_code : option string;
  includeDiscountPrices : option bool
}.

Record PriceSelectionResult (MoneyAmount : Type) : Type := mkPriceSelectionResult {
  originalPrice : option Z;
  calculatedPrice : option Z;
  prices : list MoneyAmount   (* all possible prices for the input customer and region *)
}.
Arguments mkPriceSelectionResult {MoneyAmount}.
Arguments originalPrice {MoneyAmount}.
Arguments calculatedPrice {MoneyAmount}.
Arguments prices {MoneyAmount}.

(** [interface IPriceSelectionStrategy]; the optional [manager] argument is
    the repository the strategy reads its price records from. *)
Class IPriceSelectionStrategy (MoneyAmount ProductVariant Repository Err : Type) : Type := {
  calculateVariantPrice :
    string + ProductVariant -> PriceSelectionContext -> Repository ->
    Outcome Err (PriceSelectionResult MoneyAmount)
}.

Section PriceSelection.

(** [MoneyAmount] and [ProductVariant] are imported by the interface and
    declared elsewhere. *)
Variables MoneyAmount ProductVariant Err : Type.

Variable amount : MoneyAmount -> Z.

(** The record belongs to the variant, matches the currency or region of
    the context, and its customer and quantity rule admits the context. *)
Variable applicable :
  string + ProductVariant -> PriceSelectionContext -> MoneyAmount -> bool.

(** The record is a discount price rather than a reference price. *)
Variable discounted : MoneyAmount -> bool.

(** [narrower a b]: the customer and quantity rule of [a] is narrower than
    that of [b]. *)
Variable narrower : MoneyAmount -> MoneyAmount -> bool.

Definition narrow (best : option MoneyAmount) (m : MoneyAmount)
  : option MoneyAmount :=
  match best with
  | None => Some m
  | Some b => if narrower m b then Some m else Some b
  end.

(** The record with the narrowest rule, the earliest one among equals. *)
Definition narrowest (l : list MoneyAmount) : option MoneyAmount :=
  foldl narrow None l.

(** The rule decides between any two different records of the list. *)
Definition ordered (l : list MoneyAmount) : Prop :=
  forall a b, In a l -> In b l ->
              a = b \/ narrower a b = true \/ narrower b a = true.

(** A record of the list that is narrower than every other one. *)
Definition least (m : MoneyAmount) (l : list MoneyAmount) : Prop :=
  In m l /\ forall x, In x l -> x = m \/ narrower m x = true.

Definition discounts_included (context : PriceSelectionContext) : bool :=
  match includeDiscountPrices context with
  | Some b => b
  | None => false
  end.

Definition applicable_prices
    (variant : string + ProductVariant) (context : PriceSelectionContext)
    (repo : list MoneyAmount) : list MoneyAmount :=
  List.filter (applicable variant context) repo.

(** Modelled from the spec: [calculateVariantPrice] of the Price Selection
    Strategy (4.4); the sources have its interface and no implementation.
    The rules the spec names without defining them ([applicable],
    [discounted], [narrower]) are parameters. *)
Definition select_variant_price
    (variant : string + ProductVariant) (context : PriceSelectionContext)
    (repo : list MoneyAmount)
  : Outcome Err (PriceSelectionResult MoneyAmount) :=
  let found := applicable_prices variant context repo in
  let reference := List.filter (fun m => negb (discounted m)) found in
  let eligible := if discounts_included context then found else reference in
  returned
    (mkPriceSelectionResult
       (amount <$> narrowest reference)
       (amount <$> narrowest eligible)
       found).

#[local] Instance PriceSelectionStrategy
  : IPriceSelectionStrategy MoneyAmount ProductVariant (list MoneyAmount) Err :=
  {| calculateVariantPrice := select_variant_price |}.

End PriceSelection.

Arguments narrow {MoneyAmount}.
Arguments narrowest {MoneyAmount}.
Arguments ordered {MoneyAmount}.
Arguments least {MoneyAmount}.
Arguments applicable_prices {MoneyAmount ProductVariant}.
Arguments select_variant_price {MoneyAmount ProductVariant Err}.
Arguments PriceSelectionStrategy {MoneyAmount ProductVariant Err}.

(** ** Sample deployments *)

Module Samples.

(** A container whose key service cannot acquire the key. *)
Definition conflicting_scope : Scope string string unit unit unit :=
  mkScope
    (fun m => m)
    (fun _ _ _ _ w => (thrown "ConflictError", w))
    (fun _ _ _ w => (returned (mkCartCompletionResponse 200 "order"), w)).

(** A container whose strategy throws once the key is there. *)
Definition throwing_scope : Scope string string unit unit unit :=
  mkScope
    (fun m => m)
    (fun providedKey method ps path w =>
       (returned
          (mkIdempotencyKey providedKey method path ps started None None None),
        w))
    (fun _ _ _ w => (thrown "payment provider timeout", w)).

Definition request (header : option string) : Request unit unit :=
  mkRequest tt "cart_1"
    (fun name => if decide (name = "Idempotency-Key") then header else None)
    "POST" "/store/carts/cart_1/complete" tt.

(** A two-step strategy over the list of carts that have an order: the
    first step validates, the second authorizes and places the order. *)
Definition two_steps (rp : RecoveryPoint) (cartId : string) (_ : unit)
    (orders : list string) : StepOutcome string * list string :=
  match rp with
  | started =>
      (completed
         (mkCompletionStepResult tax_lines_validated normal
            (mkCartCompletionResponse 200 "cart")),
       orders)
  | _ =>
      (completed
         (mkCompletionStepResult finished update
            (mkCartCompletionResponse 200 "order")),
       cartId :: orders)
  end.

Definition validated_key : IdempotencyKey string unit :=
  mkIdempotencyKey "key_1" "POST" "/store/carts/cart_1/complete" tt
    tax_lines_validated None None None.

Definition database : Persistence string unit (list string) :=
  mkPersistence {[ "key_1" := validated_key ]} [].

Inductive Price : Type :=
| price (currency : string) (value : Z) (sale : bool).

Definition value_of (p : Price) : Z :=
  match p with price _ v _ => v end.

Definition on_sale (p : Price) : bool :=
  match p with price _ _ s => s end.

Definition in_currency (_ : string + unit) (context : PriceSelectionContext)
    (p : Price) : bool :=
  match p with
  | price c _ _ => bool_decide (currency_code context = Some c)
  end.

Definition lower (a b : Price) : bool :=
  bool_decide (value_of a < value_of b)%Z.

Definition euro : PriceSelectionContext :=
  mkPriceSelectionContext None None None None (Some "eur") None.

Definition dollar_prices : list Price :=
  [price "usd" 1000 false; price "usd" 800 true].

End Samples.

(** ** Express routers *)

Inductive Verb : Type :=
| GET
| POST
| DELETE.

#[global] Instance Verb_eq_dec : EqDecision Verb.
Proof. solve_decision. Defined.

Definition lower_ascii (c : Ascii.ascii) : Ascii.ascii :=
  let n := Ascii.nat_of_ascii c in
  if ((65 <=? n) && (n <=? 90))%nat then Ascii.ascii_of_nat (n + 32) else c.

Fixpoint lower (s : string) : string :=
  match s with
  | EmptyString => EmptyString
  | String c rest => String (lower_ascii c) (lower rest)
  end.

(** The pieces of a path between its slashes. *)
Fixpoint split_slash (s : string) : list string :=
  match s with
  | EmptyString => [EmptyString]
  | String c rest =>
      if decide (String c EmptyString = "/") then EmptyString :: split_slash rest
      else
        match split_slash rest with
        | piece :: pieces => String c piece :: pieces
        | [] => [String c EmptyString]
        end
  end.

Definition drop_leading_empty (l : list string) : list string :=
  match l with
  | EmptyString :: rest => rest
  | _ => l
  end.

Definition drop_trailing_empty (l : list string) : list string :=
  match last l with
  | Some EmptyString => removelast l
  | _ => l
  end.

(** The segments of a path: what follows the leading slash, one optional
    trailing slash left out (routing is not strict). *)
Definition segments (p : string) : list string :=
  drop_trailing_empty (drop_leading_empty (split_slash p)).

Fixpoint slash_free (s : string) : bool :=
  match s with
  | EmptyString => true
  | String c rest =>
      negb (bool_decide (String c EmptyString = "/")) && slash_free rest
  end.

(** No percent sign, so that decoding a parameter value leaves it as it
    is. *)
Fixpoint percent_free (s : string) : bool :=
  match s with
  | EmptyString => true
  | String c rest =>
      negb (bool_decide (String c EmptyString = "%")) && percent_free rest
  end.

Fixpoint join_segments (segs : list string) : string :=
  match segs with
  | [] => EmptyString
  | s :: rest => "/" +:+ s +:+ join_segments rest
  end.

(** The path with the given segments. *)
Definition path_of (segs : list string) : string :=
  match segs with
  | [] => "/"
  | _ => join_segments segs
  end.

Inductive Segment : Type :=
| lit (s : string)
| param (name : string).

Definition to_segment (s : string) : Segment :=
  match s with
  | String c name =>
      if decide (String c EmptyString = ":") then param name else lit s
  | EmptyString => lit s
  end.

(** A route path as the router compiles it. *)
Definition compile (p : string) : list Segment :=
  to_segment <$> segments p.

(** A literal matches without regard to case; a parameter matches any
    segment that is not empty. *)
Definition segment_matches (seg : Segment) (s : string) : bool :=
  match seg with
  | lit l => bool_decide (lower s = lower l)
  | param _ => negb (bool_decide (s = ""))
  end.

Fixpoint matches (pattern : list Segment) (segs : list string) : bool :=
  match pattern, segs with
  | [], [] => true
  | seg :: pattern', s :: segs' => segment_matches seg s && matches pattern' segs'
  | _, _ => false
  end.

(** The configuration object handed to [transformQuery]. *)
Record QueryConfig : Type := mkQueryConfig {
  defaultFields : option (list string);
  defaultRelations : option (list string);
  defaultLimit : option Z;
  isList : option bool
}.

Inductive RouterName : Type :=
| price_lists_route
| publishable_api_keys_route.

(** What the loaders put on a route or on a mount point. *)
Inductive Middleware : Type :=
| transformQuery (plainToClass : string) (config : QueryConfig)
| transformBody (plainToClass : string)
| wrap (required : string)               (* middlewares.wrap(require(...).default) *)
| isFeatureFlagEnabled (flagKey : string)
| router (name : RouterName).

Record Layer : Type := mkLayer {
  layer_verb : Verb;
  layer_path : string;
  layer_stack : list Middleware
}.

Definition handles (l : Layer) (verb : Verb) (segs : list string) : bool :=
  bool_decide (layer_verb l = verb) && matches (compile (layer_path l)) segs.

(** The router hands a request to the first layer, in the order of
    registration, whose verb and path match. *)
Definition dispatch_segments (layers : list Layer) (verb : Verb)
    (segs : list string) : option Layer :=
  List.find (fun l => handles l verb segs) layers.

Definition dispatch (layers : list Layer) (verb : Verb) (p : string)
  : option Layer :=
  dispatch_segments layers verb (segments p).

(** The segments a route path stands for once its parameters have values. *)
Definition instantiate (vals : string -> string) (pattern : list Segment)
  : list string :=
  (fun seg => match seg with lit l => l | param name => vals name end)
    <$> pattern.

(** Two compiled paths that may accept the same request: as long as each
    other, and with the same literal wherever both have one. *)
Fixpoint overlap (p q : list Segment) : bool :=
  match p, q with
  | [], [] => true
  | lit a :: p', lit b :: q' => bool_decide (lower a = lower b) && overlap p' q'
  | _ :: p', _ :: q' => overlap p' q'
  | _, _ => false
  end.

Definition conflict (l1 l2 : Layer) : bool :=
  bool_decide (layer_verb l1 = layer_verb l2)
  && overlap (compile (layer_path l1)) (compile (layer_path l2)).

(** No two layers of the list may accept the same request. *)
Fixpoint unambiguous (layers : list Layer) : bool :=
  match layers with
  | [] => true
  | l :: rest => forallb (fun l' => negb (conflict l l')) rest && unambiguous rest
  end.

(** The literal segments of a compiled path are not empty and hold no
    slash. *)
Definition literals_plain (pattern : list Segment) : bool :=
  forallb (fun seg => match seg with
                      | lit l => negb (bool_decide (l = "")) && slash_free l
                      | param _ => true
                      end) pattern.

(** [app.use(path, ...handlers)] *)
Definition App : Type := list (string * list Middleware).

Definition app_use (p : string) (stack : list Middleware) (app : App) : App :=
  app ++ [(p, stack)].

(** [featureFlagRouter.isFeatureEnabled(key)] *)
Definition FlagRouter : Type := string -> bool.

Module PriceLists.

(** The module's own state: [const route = Router()] and the exported array
    [defaultAdminPriceListFields], both shared by every call of the loader. *)
Record ModuleState : Type := mkModuleState {
  route : list Layer;
  defaultAdminPriceListFields : list string
}.

Definition fresh_module : ModuleState :=
  mkModuleState []
    ["id"; "name"; "description"; "type"; "status"; "starts_at"; "ends_at";
     "created_at"; "updated_at"; "deleted_at"].

Definition defaultAdminPriceListRelations : list string :=
  ["prices"; "customer_groups"].

Definition register (verb : Verb) (p : string) (stack : list Middleware)
    (m : ModuleState) : ModuleState :=
  mkModuleState (route m ++ [mkLayer verb p stack]) (defaultAdminPriceListFields m).

Definition push_field (f : string) (m : ModuleState) : ModuleState :=
  mkModuleState (route m) (defaultAdminPriceListFields m ++ [f]).

Section Loader.

(** Imported from modules that are elsewhere: the key of the tax-inclusive
    pricing flag and the default fields and relations of products. *)
Variable TaxInclusivePricingFeatureFlag_key : string.
Variables defaultAdminProductFields defaultAdminProductRelations : list string.

(** [export default (app, featureFlagRouter) => ...] *)
Definition loader (app : App) (featureFlagRouter : FlagRouter) (m : ModuleState)
  : App * ModuleState :=
  let app := app_use "/price-lists" [router price_lists_route] app in
  let m :=
    if featureFlagRouter TaxInclusivePricingFeatureFlag_key
    then push_field "includes_tax" m else m in
  let m := register GET "/:id" [wrap "./get-price-list"] m in
  let m :=
    register GET "/"
      [transformQuery "AdminGetPriceListPaginationParams"
         (mkQueryConfig None None None (Some true));
       wrap "./list-price-lists"] m in
  let m :=
    register GET "/:id/products"
      [transformQuery "AdminGetPriceListsPriceListProductsParams"
         (mkQueryConfig
            (Some defaultAdminProductFields)
            (Some (List.filter
                     (fun r => negb (bool_decide (r = "variants.prices")))
                     defaultAdminProductRelations))
            (Some 50)
            (Some true));
       wrap "./list-price-list-products"] m in
  let m :=
    register DELETE "/:id/products/:product_id/prices"
      [wrap "./delete-product-prices"] m in
  let m :=
    register DELETE "/:id/variants/:variant_id/prices"
      [wrap "./delete-variant-prices"] m in
  let m :=
    register POST "/"
      [transformBody "AdminPostPriceListsPriceListReq";
       wrap "./create-price-list"] m in
  let m := register POST "/:id" [wrap "./update-price-list"] m in
  let m := register DELETE "/:id" [wrap "./delete-price-list"] m in
  let m :=
    register DELETE "/:id/prices/batch" [wrap "./delete-prices-batch"] m in
  let m := register POST "/:id/prices/batch" [wrap "./add-prices-batch"] m in
  (app, m).

(** The loader called once for each flag router of a list, on the same
    application and the same module. *)
Fixpoint load_all (flagRouters : list FlagRouter) (app : App) (m : ModuleState)
  : App * ModuleState :=
  match flagRouters with
  | [] => (app, m)
  | featureFlagRouter :: rest =>
      let '(app', m') := loader app featureFlagRouter m in
      load_all rest app' m'
  end.

(** What one call registers on the fresh module's router. *)
Definition layers : list Layer :=
  route (loader [] (fun _ => false) fresh_module).2.

End Loader.

End PriceLists.

Module PublishableApiKeys.

Section Loader.

Variable PublishableAPIKeysFeatureFlag_key : string.

Definition register (verb : Verb) (p : string) (stack : list Middleware)
    (route : list Layer) : list Layer :=
  route ++ [mkLayer verb p stack].

(** [export default (app) => ...], on the module's [const route]. *)
Definition loader (app : App) (route : list Layer) : App * list Layer :=
  let app :=
    app_use "/publishable-api-keys"
      [isFeatureFlagEnabled PublishableAPIKeysFeatureFlag_key;
       router publishable_api_keys_route] app in
  let route :=
    register POST "/"
      [transformBody "AdminPostPublishableApiKeysReq";
       wrap "./create-publishable-api-key"] route in
  let route := register GET "/:id" [wrap "./get-publishable-api-key"] route in
  let route :=
    register POST "/:id"
      [transformBody "AdminPostPublishableApiKeysPublishableApiKeyReq";
       wrap "./update-publishable-api-key"] route in
  let route :=
    register DELETE "/:id" [wrap "./delete-publishable-api-key"] route in
  let route :=
    register POST "/:id/revoke" [wrap "./revoke-publishable-api-key"] route in
  let route :=
    register GET "/"
      [transformQuery "GetPublishableApiKeysParams"
         (mkQueryConfig None None None (Some true));
       wrap "./list-publishable-api-keys"] route in
  let route :=
    register GET "/:id/sales-channels"
      [transformQuery "GetPublishableApiKeySalesChannelsParams"
         (mkQueryConfig None None None (Some true));
       wrap "./list-publishable-api-key-sales-channels"] route in
  let route :=
    register POST "/:id/sales-channels/batch"
      [transformBody "AdminPostPublishableApiKeySalesChannelsBatchReq";
       wrap "./add-channels-batch"] route in
  let route :=
    register DELETE "/:id/sales-channels/batch"
      [transformBody "AdminDeletePublishableApiKeySalesChannelsBatchReq";
       wrap "./delete-channels-batch"] route in
  (app, route).

(** What one call registers on the fresh router. *)
Definition layers : list Layer := (loader [] []).2.

End Loader.

End PublishableApiKeys.

(** * Properties of the handler *)

Section HandlerFacts.

Variables Body Err Params Context World : Type.
Variable scope : Scope Body Err Params Context World.

Abbreviation State := (HandlerState Body Err Params Context World).
Abbreviation Key := (IdempotencyKey Body Params).

(** One equation per way a run of the handler can go. *)

Lemma handler_init_thrown (req : Request Params Context) (s : State) e w' :
  initialize scope req (world s) = (thrown e, w') ->
  handler scope req s =
    (returned tt,
     mkHandlerState w'
       (mkResponse 409 (headers (res s))
          (Some (text "Failed to create idempotency key")))
       (trace s ++ [console_log e])).
Proof.
  unfold initialize, handler. intros H.
  unfold bind, try_catch, await. rewrite H. reflexivity.
Qed.

Lemma handler_complete_returned
    (req : Request Params Context) (s : State) (key : Key) w' r w'' :
  initialize scope req (world s) = (returned key, w') ->
  complete scope (params_id req) key (request_context req) w'
    = (returned r, w'') ->
  handler scope req s =
    (returned tt,
     mkHandlerState w''
       (mkResponse (response_code r) (exposed key (headers (res s)))
          (Some (json (response_body r))))
       (trace s ++
          [complete_called (params_id req) key (request_context req)])).
Proof.
  unfold initialize, handler. intros H1 H2.
  unfold bind, try_catch, await. rewrite H1. cbn. rewrite H2. reflexivity.
Qed.

Lemma handler_complete_thrown
    (req : Request Params Context) (s : State) (key : Key) w' e w'' :
  initialize scope req (world s) = (returned key, w') ->
  complete scope (params_id req) key (request_context req) w'
    = (thrown e, w'') ->
  handler scope req s =
    (thrown e,
     mkHandlerState w''
       (mkResponse (statusCode (res s)) (exposed key (headers (res s)))
          (payload (res s)))
       (trace s ++
          [complete_called (params_id req) key (request_context req)])).
Proof.
  unfold initialize, handler. intros H1 H2.
  unfold bind, try_catch, await. rewrite H1. cbn. rewrite H2. reflexivity.
Qed.

Lemma complete_calls_app (t u : list (Event Body Err Params Context)) :
  complete_calls (t ++ u) = complete_calls t ++ complete_calls u.
Proof. unfold complete_calls. apply filter_app. Qed.

Lemma exposed_key (key : Key) h :
  exposed key h !! "Idempotency-Key" = Some (idempotency_key key).
Proof. unfold exposed. apply lookup_insert_eq. Qed.

Lemma exposed_allow_list (key : Key) h :
  exposed key h !! "Access-Control-Expose-Headers" = Some "Idempotency-Key".
Proof.
  unfold exposed. rewrite lookup_insert_ne by discriminate.
  apply lookup_insert_eq.
Qed.

(** C2. When initialising the idempotency key throws, the handler answers
    at once with status 409 and its fixed text: it returns, the world is as
    the failed initialisation left it, and the completion strategy was not
    invoked. *)
Theorem key_failure_answers_409_without_completing
    (req : Request Params Context) (s : State) e w' :
  initialize scope req (world s) = (thrown e, w') ->
  exists s',
    handler scope req s = (returned tt, s') /\
    statusCode (res s') = 409 /\
    payload (res s') = Some (text "Failed to create idempotency key") /\
    world s' = w' /\
    complete_calls (trace s') = complete_calls (trace s).
Proof.
  intros H. eexists. split; [apply (handler_init_thrown _ _ _ _ H)|].
  split; [reflexivity|]. split; [reflexivity|]. split; [reflexivity|].
  change (complete_calls (trace s ++ [console_log e])
          = complete_calls (trace s)).
  rewrite complete_calls_app. apply app_nil_r.
Qed.


(** C4. When the idempotency key is initialised and the strategy's
    [complete], called with the cart id, that key and the request context,
    returns, the status and the JSON body of the response are exactly the
    [response_code] and [response_body] it returned. *)
Theorem response_is_what_complete_returned
    (req : Request Params Context) (s : State) (key : Key) w' r w'' :
  initialize scope req (world s) = (returned key, w') ->
  complete scope (params_id req) key (request_context req) w'
    = (returned r, w'') ->
  exists s',
    handler scope req s = (returned tt, s') /\
    statusCode (res s') = response_code r /\
    payload (res s') = Some (json (response_body r)) /\
    trace s' =
      trace s ++ [complete_called (params_id req) key (request_context req)].
Proof.
  intros H1 H2. eexists.
  split; [apply (handler_complete_returned _ _ _ _ _ _ H1 H2)|].
  cbn. repeat split.
Qed.

(** C10. Whatever error the key initialisation throws, the handler gives
    the same response: status 409, the plain text "Failed to create
    idempotency key" as body, and the headers left as they were. *)
Theorem key_failure_response_is_fixed
    (req : Request Params Context) (s : State) e w' :
  initialize scope req (world s) = (thrown e, w') ->
  exists s',
    handler scope req s = (returned tt, s') /\
    res s' =
      mkResponse 409 (headers (res s))
        (Some (text "Failed to create idempotency key")).
Proof.
  intros H. eexists. split; [apply (handler_init_thrown _ _ _ _ H)|].
  reflexivity.
Qed.

End HandlerFacts.

Lemma key_failure_answers_409_without_completing_witness :
  let s := mkHandlerState tt fresh_response [] in
  initialize Samples.conflicting_scope (Samples.request (Some "key_1")) (world s)
    = (thrown "ConflictError", tt) /\
  exists s',
    handler Samples.conflicting_scope (Samples.request (Some "key_1")) s
      = (returned tt, s') /\
    statusCode (res s') = 409 /\
    payload (res s') = Some (text "Failed to create idempotency key") /\
    world s' = tt /\
    complete_calls (trace s') = complete_calls (trace s).
Proof.
  split; [reflexivity|].
  apply (key_failure_answers_409_without_completing _ _ _ _ _
           Samples.conflicting_scope (Samples.request (Some "key_1"))
           (mkHandlerState tt fresh_response []) "ConflictError" tt).
  reflexivity.
Defined.



Lemma key_failure_response_is_fixed_witness :
  let s := mkHandlerState tt fresh_response [] in
  initialize Samples.conflicting_scope (Samples.request None) (world s)
    = (thrown "ConflictError", tt) /\
  exists s',
    handler Samples.conflicting_scope (Samples.request None) s
      = (returned tt, s') /\
    res s' = mkResponse 409 ∅ (Some (text "Failed to create idempotency key")).
Proof.
  split; [reflexivity|].
  apply (key_failure_response_is_fixed _ _ _ _ _
           Samples.conflicting_scope (Samples.request None)
           (mkHandlerState tt fresh_response []) "ConflictError" tt).
  reflexivity.
Defined.

(** * Properties of the key store and of the executor *)

Section WorkflowFacts.

Variables Body Params Context Domain : Type.
Variable step :
  RecoveryPoint -> string -> Context -> Domain -> StepOutcome Body * Domain.

Abbreviation Key := (IdempotencyKey Body Params).
Abbreviation Db := (Persistence Body Params Domain).

Lemma initializeRequest_existing (token method : string) ps path (db : Db) key :
  token ≠ "" ->
  keys db !! token = Some key ->
  store_initializeRequest token method ps path db = (returned key, db).
Proof.
  intros Hne Hk. unfold store_initializeRequest.
  destruct (decide (token = "")); [contradiction|]. by rewrite Hk.
Qed.

Lemma initializeRequest_absent (token method : string) ps path (db : Db) :
  token ≠ "" ->
  keys db !! token = None ->
  store_initializeRequest token method ps path db
    = create token method ps path db.
Proof.
  intros Hne Hk. unfold store_initializeRequest.
  destruct (decide (token = "")); [contradiction|]. by rewrite Hk.
Qed.

Lemma generate_token_fresh (db : Db) :
  generate_token db ≠ "" /\ keys db !! generate_token db = None.
Proof.
  unfold generate_token.
  pose proof (is_fresh ({[ "" ]} ∪ dom (keys db))) as Hf.
  split.
  - intros E. apply Hf. rewrite E. set_solver.
  - apply not_elem_of_dom. set_solver.
Qed.

(** The key initialisation of the handler never throws in this
    deployment, so the transaction around it commits. *)
Lemma initialize_workflow (req : Request Params Context) (db : Db) :
  initialize (workflow_scope step) req db
    = store_initializeRequest (js_or (get req "Idempotency-Key") "")
        (method req) (params req) (path req) db.
Proof.
  unfold initialize. cbn. unfold atomically, store_initializeRequest, create.
  destruct (decide _); [reflexivity|].
  destruct (keys db !! _); reflexivity.
Qed.

Lemma js_or_token (token : string) : token ≠ "" -> js_or (Some token) "" = token.
Proof. intros H. unfold js_or. destruct (decide (token = "")); done. Qed.

(** A finished key is answered from what was persisted, and nothing
    changes. *)
Lemma complete_finished cartId (key : Key) ctx (db : Db) code body :
  recovery_point key = finished ->
  key_response_code key = Some code ->
  key_response_body key = Some body ->
  strategy_complete step cartId key ctx db
    = (returned (mkCartCompletionResponse code body), db).
Proof.
  intros Hf Hc Hb. unfold strategy_complete.
  destruct (decide (recovery_point key = finished)); [|contradiction].
  by rewrite Hc, Hb.
Qed.

Lemma final_patch_finished (r : CartCompletionResponse Body) (key : Key) :
  let key' := apply_patch (mkPatch finished (Some r)) key in
  recovery_point key' = finished /\
  key_response_code key' = Some (response_code r) /\
  key_response_body key' = Some (response_body r) /\
  idempotency_key key' = idempotency_key key.
Proof. repeat split. Qed.

Lemma patch_keeps_token (p : Patch Body) (key : Key) :
  idempotency_key (apply_patch p key) = idempotency_key key.
Proof. unfold apply_patch. by destruct (patch_response p). Qed.

Lemma progress_patch_unfinished (r : CompletionStepResult Body) (key : Key) :
  is_final r = false ->
  recovery_point (apply_patch (patch_of r) key) ≠ finished.
Proof.
  intros Hf. unfold patch_of. rewrite Hf. cbn.
  unfold is_final in Hf. apply orb_false_elim in Hf as [_ Hf].
  by apply bool_decide_eq_false in Hf.
Qed.

(** What a call leaves under a token, once it is finished, is what the
    next call is answered with: the same outcome, and the same state. *)
Lemma complete_then_replay cartId ctx token (k0 k1 : Key) (db0 db1 : Db) o :
  keys db0 !! token = Some k0 ->
  strategy_complete step cartId k0 ctx db0 = (o, db1) ->
  keys db1 !! token = Some k1 ->
  recovery_point k1 = finished ->
  strategy_complete step cartId k1 ctx db1 = (o, db1) /\
  idempotency_key k1 = idempotency_key k0.
Proof.
  intros H0 Hc H1 Hfin. unfold strategy_complete in Hc.
  destruct (decide (recovery_point k0 = finished)) as [Hf0|Hf0].
  - assert (db1 = db0) as ->.
    { destruct (key_response_code k0), (key_response_body k0); congruence. }
    assert (k1 = k0) as -> by congruence.
    split; [|reflexivity]. unfold strategy_complete.
    destruct (decide (recovery_point k0 = finished)); [|contradiction].
    exact Hc.
  - destruct (step (recovery_point k0) cartId ctx (domain db0))
      as [outcome d] eqn:Hs.
    assert (forall r,
      o = returned r ->
      db1 = store_update (idempotency_key k0) (mkPatch finished (Some r))
              (mkPersistence (keys db0) d) ->
      strategy_complete step cartId k1 ctx db1 = (o, db1) /\
      idempotency_key k1 = idempotency_key k0) as Hfinal.
    { intros r -> ->. cbn in H1.
      destruct (decide (idempotency_key k0 = token)) as [E|E].
      - rewrite E in H1. rewrite lookup_alter_eq, H0 in H1.
        injection H1 as <-. split; [|reflexivity].
        rewrite E.
        rewrite (complete_finished _ _ _ _ (response_code r) (response_body r));
          try reflexivity.
        by destruct r.
      - rewrite lookup_alter_ne in H1 by exact E. congruence. }
    destruct outcome as [r|err|err].
    + injection Hc as <- <-. unfold patch_of in *.
      destruct (is_final r) eqn:Hr.
      * by apply (Hfinal (data r)).
      * exfalso. cbn in H1.
        destruct (decide (idempotency_key k0 = token)) as [E|E].
        -- rewrite E in H1. rewrite lookup_alter_eq, H0 in H1.
           injection H1 as <-.
           pose proof (progress_patch_unfinished r k0 Hr) as Hp.
           unfold patch_of in Hp. rewrite Hr in Hp. contradiction.
        -- rewrite lookup_alter_ne in H1 by exact E. congruence.
    + injection Hc as <- <-. congruence.
    + injection Hc as <- <-. by apply (Hfinal err).
Qed.

Lemma initializeRequest_resolves (token method : string) ps path (db : Db) :
  token ≠ "" ->
  exists k0 db0,
    store_initializeRequest token method ps path db = (returned k0, db0) /\
    keys db0 !! token = Some k0.
Proof.
  intros Hne. destruct (keys db !! token) as [k|] eqn:Hk.
  - exists k, db. by rewrite (initializeRequest_existing _ _ _ _ _ k).
  - rewrite initializeRequest_absent by done. unfold create.
    eexists _, _. split; [reflexivity|]. cbn. apply lookup_insert_eq.
Qed.

(** A request served in this deployment: the answer is decided by what
    the executor does with the resolved key. *)
Lemma serve_workflow (req : Request Params Context) (db db0 db1 : Db) k0 o :
  initialize (workflow_scope step) req db = (returned k0, db0) ->
  strategy_complete step (params_id req) k0 (request_context req) db0
    = (o, db1) ->
  exists o1 r1,
    serve (workflow_scope step) req db
      = (o1, mkHandlerState db1 r1
               [complete_called (params_id req) k0 (request_context req)]) /\
    headers r1 = exposed k0 ∅ /\
    match o with
    | returned r =>
        o1 = returned tt /\ statusCode r1 = response_code r /\
        payload r1 = Some (json (response_body r))
    | thrown e =>
        o1 = thrown e /\ statusCode r1 = 200 /\ payload r1 = None
    end.
Proof.
  intros Hi Hc. unfold serve. destruct o as [r|e].
  - erewrite handler_complete_returned; [|exact Hi|exact Hc].
    eexists _, _. split; [reflexivity|]. repeat split.
  - erewrite handler_complete_thrown; [|exact Hi|exact Hc].
    eexists _, _. split; [reflexivity|]. repeat split.
Qed.

(** The executor never drops the record of a token. *)
Lemma complete_keeps_record cartId ctx token (k0 : Key) (db0 db1 : Db) o :
  keys db0 !! token = Some k0 ->
  strategy_complete step cartId k0 ctx db0 = (o, db1) ->
  exists k1, keys db1 !! token = Some k1.
Proof.
  intros H0 Hc. unfold strategy_complete in Hc.
  assert (forall (p : Patch Body) (d : Domain),
            is_Some (keys (store_update (idempotency_key k0) p
                             (mkPersistence (keys db0) d)) !! token)) as Hup.
  { intros p d. cbn.
    destruct (decide (idempotency_key k0 = token)) as [E|E].
    - rewrite E, lookup_alter_eq, H0. by eexists.
    - rewrite lookup_alter_ne by exact E. by eexists. }
  destruct (decide (recovery_point k0 = finished)).
  - assert (db1 = db0) as ->.
    { destruct (key_response_code k0), (key_response_body k0); congruence. }
    by exists k0.
  - destruct (step (recovery_point k0) cartId ctx (domain db0)) as [outcome d].
    destruct outcome as [r|err|err]; injection Hc as <- <-.
    + destruct (Hup (patch_of r) d) as [k1 Hk1]. by exists k1.
    + by exists k0.
    + destruct (Hup (mkPatch finished (Some err)) d) as [k1 Hk1]. by exists k1.
Qed.


(** C6. [initializeRequest] with a non-empty key returns a record and
    leaves it stored under that key: the record that existed, with the store
    untouched, or else a new one with that token and
    [recovery_point = started]; a second call with the same key, whatever its
    other arguments, returns that same record. With the empty key it creates
    a record under a newly generated token, which is not empty and which no
    record carried, with [recovery_point = started]; and the handler passes
    the empty key when the request has no [Idempotency-Key] header. *)
Theorem initializeRequest_idempotent_creation
    (providedKey reqMethod : string) ps reqPath (db : Db) :
  (providedKey ≠ "" ->
     exists record db1,
       store_initializeRequest providedKey reqMethod ps reqPath db
         = (returned record, db1) /\
       keys db1 !! providedKey = Some record /\
       (forall existing,
          keys db !! providedKey = Some existing ->
          record = existing /\ db1 = db) /\
       (keys db !! providedKey = None ->
          idempotency_key record = providedKey /\
          recovery_point record = started) /\
       (forall reqMethod' ps' reqPath',
          store_initializeRequest providedKey reqMethod' ps' reqPath' db1
            = (returned record, db1))) /\
  (providedKey = "" ->
     exists key,
       store_initializeRequest providedKey reqMethod ps reqPath db
         = (returned key,
            mkPersistence (<[idempotency_key key := key]> (keys db))
              (domain db)) /\
       idempotency_key key ≠ "" /\
       keys db !! idempotency_key key = None /\
       recovery_point key = started) /\
  (forall req : Request Params Context,
     get req "Idempotency-Key" = None ->
     initialize (workflow_scope step) req db
       = store_initializeRequest "" (method req) (params req) (path req) db).
Proof.
  split; [|split].
  - intros Hne.
    destruct (keys db !! providedKey) as [existing|] eqn:Hk.
    + exists existing, db.
      split; [by apply initializeRequest_existing|].
      split; [exact Hk|]. split; [|split].
      * intros existing' H. split; congruence.
      * discriminate.
      * intros. by apply initializeRequest_existing.
    + rewrite initializeRequest_absent by done. unfold create.
      eexists _, _. split; [reflexivity|]. cbn [keys].
      split; [apply lookup_insert_eq|]. split; [|split].
      * discriminate.
      * intros _. split; reflexivity.
      * intros. apply initializeRequest_existing; [exact Hne|].
        apply lookup_insert_eq.
  - intros ->. unfold store_initializeRequest.
    destruct (decide ("" = "")); [|done].
    destruct (generate_token_fresh db) as [Hne Hfresh].
    exists (mkIdempotencyKey (generate_token db) reqMethod reqPath ps started
              None None None).
    repeat split; assumption.
  - intros req Hget. by rewrite initialize_workflow, Hget.
Qed.

End WorkflowFacts.

Lemma response_is_what_complete_returned_witness :
  let scope := workflow_scope Samples.two_steps in
  let req := Samples.request (Some "key_1") in
  let s := mkHandlerState Samples.database fresh_response [] in
  let db' := store_update "key_1"
               (mkPatch finished (Some (mkCartCompletionResponse 200 "order")))
               (mkPersistence (keys Samples.database) ["cart_1"]) in
  initialize scope req (world s) = (returned Samples.validated_key, Samples.database) /\
  complete scope (params_id req) Samples.validated_key (request_context req)
    Samples.database = (returned (mkCartCompletionResponse 200 "order"), db') /\
  exists s',
    handler scope req s = (returned tt, s') /\
    statusCode (res s') = 200 /\
    payload (res s') = Some (json "order") /\
    trace s' = [complete_called "cart_1" Samples.validated_key tt].
Proof.
  split; [reflexivity|]. split; [reflexivity|].
  apply (response_is_what_complete_returned _ _ _ _ _
           (workflow_scope Samples.two_steps) (Samples.request (Some "key_1"))
           (mkHandlerState Samples.database fresh_response [])
           Samples.validated_key Samples.database
           (mkCartCompletionResponse 200 "order")
           (store_update "key_1"
              (mkPatch finished (Some (mkCartCompletionResponse 200 "order")))
              (mkPersistence (keys Samples.database) ["cart_1"])));
    reflexivity.
Defined.



Lemma initializeRequest_idempotent_creation_witness :
  let db := Samples.database in
  "key_2" ≠ "" /\
  keys db !! "key_2" = None /\
  (exists record db1,
     @store_initializeRequest string unit (list string) "key_2" "POST" tt "/p" db
       = (returned record, db1) /\
     keys db1 !! "key_2" = Some record /\
     idempotency_key record = "key_2" /\
     recovery_point record = started /\
     store_initializeRequest "key_2" "GET" tt "/q" db1 = (returned record, db1)) /\
  (exists key,
     @store_initializeRequest string unit (list string) "" "POST" tt "/p" db
       = (returned key,
          mkPersistence (<[idempotency_key key := key]> (keys db)) (domain db)) /\
     idempotency_key key ≠ "" /\
     keys db !! idempotency_key key = None /\
     recovery_point key = started).
Proof.
  split; [discriminate|]. split; [reflexivity|]. split.
  - destruct (initializeRequest_idempotent_creation _ _ unit _ Samples.two_steps
                "key_2" "POST" tt "/p" Samples.database) as [H _].
    destruct H as (record & db1 & H1 & H2 & _ & H4 & H5); [discriminate|].
    destruct H4 as [H4 H4']; [reflexivity|].
    exists record, db1. repeat split; try assumption. apply H5.
  - apply (initializeRequest_idempotent_creation _ _ unit _ Samples.two_steps
             "" "POST" tt "/p" Samples.database).
    reflexivity.
Defined.

(** * Properties of the price selection *)

Section PriceSelectionFacts.

Variables MoneyAmount ProductVariant Err : Type.
Variable amount : MoneyAmount -> Z.
Variable applicable :
  string + ProductVariant -> PriceSelectionContext -> MoneyAmount -> bool.
Variable discounted : MoneyAmount -> bool.
Variable narrower : MoneyAmount -> MoneyAmount -> bool.

Abbreviation strategy :=
  (PriceSelectionStrategy (Err := Err) amount applicable discounted narrower).

Lemma applicable_prices_none variant context (repo : list MoneyAmount) :
  (forall m, In m repo -> applicable variant context m = false) ->
  applicable_prices applicable variant context repo = [].
Proof.
  unfold applicable_prices. induction repo as [|m repo IH]; intros H.
  - reflexivity.
  - cbn. rewrite (H m) by (left; reflexivity).
    apply IH. intros m' Hm'. apply H. right. exact Hm'.
Qed.

(** C8. When no price record of the repository is applicable to the
    variant in the context, [calculateVariantPrice] returns (it does not
    throw) a result whose [originalPrice] and [calculatedPrice] are both
    null. *)
Theorem no_applicable_price_is_null
    variant context (repo : list MoneyAmount) :
  (forall m, In m repo -> applicable variant context m = false) ->
  exists result,
    calculateVariantPrice (IPriceSelectionStrategy := strategy)
      variant context repo = returned result /\
    originalPrice result = None /\
    calculatedPrice result = None.
Proof.
  intros H. eexists. split; [reflexivity|].
  cbn. rewrite (applicable_prices_none _ _ _ H). cbn.
  destruct (discounts_included context); split; reflexivity.
Qed.

Lemma narrow_from (b : MoneyAmount) (l : list MoneyAmount) :
  exists m, foldl (narrow narrower) (Some b) l = Some m.
Proof.
  revert b. induction l as [|a l IH]; intros b; cbn.
  - by exists b.
  - destruct (narrower a b); apply IH.
Qed.

Section TotalRule.

(** The narrowness rule orders the price records: nothing is narrower than
    itself, the rule is transitive, and of two different records of the list
    in hand one is narrower than the other. *)
Hypothesis narrower_irreflexive : forall a, narrower a a = false.
Hypothesis narrower_transitive :
  forall a b c, narrower a b = true -> narrower b c = true -> narrower a c = true.

Abbreviation ordered := (ordered narrower).
Abbreviation least := (least narrower).

Lemma narrow_least (l : list MoneyAmount) : forall b m,
  ordered (b :: l) ->
  foldl (narrow narrower) (Some b) l = Some m ->
  least m (b :: l).
Proof.
  induction l as [|a l IH]; intros b m Hord Hf; cbn in Hf.
  - injection Hf as <-. split; [by left|].
    intros x [<-|[]]. by left.
  - assert (forall b', (b' = a \/ b' = b) -> ordered (b' :: l)) as Hsub.
    { intros b' Hb' x y Hx Hy. apply Hord.
      - destruct Hx as [<-|Hx]; [destruct Hb' as [->| ->]; cbn; auto|].
        right. by right.
      - destruct Hy as [<-|Hy]; [destruct Hb' as [->| ->]; cbn; auto|].
        right. by right. }
    destruct (narrower a b) eqn:Hab.
    + destruct (IH a m (Hsub a (or_introl eq_refl)) Hf) as [Hin Hmin].
      split.
      * destruct Hin as [<-|Hin]; [right; by left | right; by right].
      * intros x [<-|[<-|Hx]].
        -- destruct (Hmin a (or_introl eq_refl)) as [<-|Hma]; [by right|].
           right. by apply narrower_transitive with a.
        -- apply Hmin. by left.
        -- apply Hmin. by right.
    + destruct (IH b m (Hsub b (or_intror eq_refl)) Hf) as [Hin Hmin].
      split.
      * destruct Hin as [<-|Hin]; [by left | right; by right].
      * intros x [<-|[<-|Hx]].
        -- apply Hmin. by left.
        -- destruct (Hmin b (or_introl eq_refl)) as [<-|Hmb].
           ++ destruct (Hord a b) as [->|[Hxb|Hbx]]; cbn; auto.
              congruence.
           ++ destruct (Hord a b) as [->|[Hxb|Hbx]]; cbn; auto.
              ** congruence.
              ** right. by apply narrower_transitive with b.
        -- apply Hmin. by right.
Qed.

Lemma least_unique (l : list MoneyAmount) m m' :
  least m l -> least m' l -> m = m'.
Proof.
  intros [Hin Hmin] [Hin' Hmin'].
  destruct (Hmin m' Hin') as [->|H1]; [reflexivity|].
  destruct (Hmin' m Hin) as [->|H2]; [reflexivity|].
  pose proof (narrower_transitive _ _ _ H1 H2) as H.
  by rewrite narrower_irreflexive in H.
Qed.

(** Under such a rule the pick depends on the records only, not on the
    order of the list. *)
Lemma narrowest_same_records (l l' : list MoneyAmount) :
  ordered l ->
  (forall m, In m l' <-> In m l) ->
  narrowest narrower l' = narrowest narrower l.
Proof.
  intros Hord Hsame. unfold narrowest.
  assert (ordered l') as Hord'.
  { intros a b Ha Hb. apply Hord; by apply Hsame. }
  destruct l as [|a l], l' as [|a' l'].
  - reflexivity.
  - exfalso. apply (Hsame a'). by left.
  - exfalso. apply (Hsame a). by left.
  - cbn.
    destruct (narrow_from a l) as [m Hm], (narrow_from a' l') as [m' Hm'].
    rewrite Hm, Hm'. f_equal.
    apply (least_unique (a :: l)); [|by apply narrow_least].
    destruct (narrow_least _ _ _ Hord' Hm') as [Hin Hmin].
    split; [by apply Hsame|]. intros x Hx. apply Hmin. by apply Hsame.
Qed.


End TotalRule.

End PriceSelectionFacts.

Lemma no_applicable_price_is_null_witness :
  (forall m, In m Samples.dollar_prices ->
             Samples.in_currency (inl "variant_1") Samples.euro m = false) /\
  exists result,
    calculateVariantPrice
      (IPriceSelectionStrategy :=
         PriceSelectionStrategy (Err := string) Samples.value_of
           Samples.in_currency Samples.on_sale Samples.lower)
      (inl "variant_1") Samples.euro Samples.dollar_prices = returned result /\
    originalPrice result = None /\
    calculatedPrice result = None.
Proof.
  assert (forall m, In m Samples.dollar_prices ->
             Samples.in_currency (inl "variant_1") Samples.euro m = false) as H.
  { intros m [<-|[<-|[]]]; reflexivity. }
  split; [exact H|].
  apply (no_applicable_price_is_null Samples.Price unit string Samples.value_of
           Samples.in_currency Samples.on_sale Samples.lower
           (inl "variant_1") Samples.euro Samples.dollar_prices H).
Defined.



(** * More about the handler *)

Section HandlerRuns.

Variables Body Err Params Context World : Type.
Variable scope : Scope Body Err Params Context World.

Abbreviation State := (HandlerState Body Err Params Context World).

(** Every run of the handler is one of three. *)
Lemma handler_cases (req : Request Params Context) (s : State) :
  (exists e w', initialize scope req (world s) = (thrown e, w')) \/
  (exists key w' r w'',
     initialize scope req (world s) = (returned key, w') /\
     complete scope (params_id req) key (request_context req) w'
       = (returned r, w'')) \/
  (exists key w' e w'',
     initialize scope req (world s) = (returned key, w') /\
     complete scope (params_id req) key (request_context req) w'
       = (thrown e, w'')).
Proof.
  destruct (initialize scope req (world s)) as [[key|e] w'] eqn:Hi.
  - destruct (complete scope (params_id req) key (request_context req) w')
      as [[r|e] w''] eqn:Hc.
    + right. left. by exists key, w', r, w''.
    + right. right. by exists key, w', e, w''.
  - left. by exists e, w'.
Qed.

(** X2. When the key is initialised and the completion strategy throws,
    the handler does not catch: it throws the strategy's error, with the
    status and the body of the response not written and the world as the
    strategy left it. *)
Theorem handler_throws_what_complete_throws
    (req : Request Params Context) (s : State) key w' e w'' :
  initialize scope req (world s) = (returned key, w') ->
  complete scope (params_id req) key (request_context req) w'
    = (thrown e, w'') ->
  exists s',
    handler scope req s = (thrown e, s') /\
    statusCode (res s') = statusCode (res s) /\
    payload (res s') = payload (res s) /\
    world s' = w''.
Proof.
  intros Hi Hc. eexists.
  split; [apply (handler_complete_thrown _ _ _ _ _ _ _ _ _ _ _ _ Hi Hc)|].
  repeat split.
Qed.

(** X5. A run that returns has answered: either with status 409 and the
    fixed text, after a failed key initialisation, or with the status and
    the JSON body the completion strategy returned. *)
Theorem handler_answers_when_it_returns
    (req : Request Params Context) (s : State) s' :
  handler scope req s = (returned tt, s') ->
  (statusCode (res s') = 409 /\
   payload (res s') = Some (text "Failed to create idempotency key") /\
   exists e, (initialize scope req (world s)).1 = thrown e) \/
  (exists key w' r,
     initialize scope req (world s) = (returned key, w') /\
     (complete scope (params_id req) key (request_context req) w').1
       = returned r /\
     statusCode (res s') = response_code r /\
     payload (res s') = Some (json (response_body r))).
Proof.
  intros H.
  destruct (handler_cases req s)
    as [(e0 & w' & Hi)|[(key & w' & r & w'' & Hi & Hc)
                       |(key & w' & e0 & w'' & Hi & Hc)]].
  - rewrite (handler_init_thrown _ _ _ _ _ _ _ _ _ _ Hi) in H.
    injection H as <-. left. rewrite Hi. repeat split. by exists e0.
  - rewrite (handler_complete_returned _ _ _ _ _ _ _ _ _ _ _ _ Hi Hc) in H.
    injection H as <-. right. exists key, w', r. rewrite Hc. by repeat split.
  - rewrite (handler_complete_thrown _ _ _ _ _ _ _ _ _ _ _ _ Hi Hc) in H.
    discriminate.
Qed.

End HandlerRuns.

(** * Routing *)

Section RoutingFacts.

Lemma matches_length pattern : forall segs,
  matches pattern segs = true -> length segs = length pattern.
Proof.
  induction pattern as [|seg pattern IH]; intros [|s segs] H;
    try discriminate; [reflexivity|].
  cbn in H. apply andb_true_iff in H as [_ H]. cbn. f_equal. by apply IH.
Qed.

Lemma matches_overlap p : forall q segs,
  matches p segs = true -> matches q segs = true -> overlap p q = true.
Proof.
  induction p as [|a p IH]; intros [|b q] [|s segs] Hp Hq;
    try discriminate; [reflexivity|].
  cbn in Hp, Hq.
  apply andb_true_iff in Hp as [Ha Hp], Hq as [Hb Hq].
  specialize (IH q segs Hp Hq).
  destruct a as [a|a], b as [b|b]; cbn; try exact IH.
  apply andb_true_iff. split; [|exact IH].
  cbn in Ha, Hb. apply bool_decide_eq_true in Ha, Hb.
  apply bool_decide_eq_true. congruence.
Qed.

Lemma handles_conflict l1 l2 verb segs :
  handles l1 verb segs = true -> handles l2 verb segs = true ->
  conflict l1 l2 = true.
Proof.
  unfold handles, conflict. intros H1 H2.
  apply andb_true_iff in H1 as [V1 M1], H2 as [V2 M2].
  apply bool_decide_eq_true in V1, V2.
  apply andb_true_iff. split.
  - apply bool_decide_eq_true. congruence.
  - by apply (matches_overlap _ _ segs).
Qed.

Lemma matches_instantiate vals pattern :
  (forall name, vals name ≠ "") ->
  literals_plain pattern = true ->
  matches pattern (instantiate vals pattern) = true.
Proof.
  intros Hvals. induction pattern as [|seg pattern IH]; [reflexivity|].
  cbn. intros H. apply andb_true_iff in H as [_ H].
  apply andb_true_iff. split; [|by apply IH].
  destruct seg as [l|name]; cbn.
  - by apply bool_decide_eq_true.
  - apply negb_true_iff, bool_decide_eq_false. apply Hvals.
Qed.

Lemma instantiate_plain vals pattern :
  (forall name, vals name ≠ "" /\ slash_free (vals name) = true) ->
  literals_plain pattern = true ->
  Forall (fun s => slash_free s = true) (instantiate vals pattern) /\
  "" ∉ instantiate vals pattern.
Proof.
  intros Hvals. induction pattern as [|seg pattern IH]; cbn.
  - intros _. split; [constructor | apply not_elem_of_nil].
  - intros H. apply andb_true_iff in H as [Hseg H].
    destruct (IH H) as [IH1 IH2].
    destruct seg as [l|name].
    + apply andb_true_iff in Hseg as [Hne Hfree].
      apply negb_true_iff, bool_decide_eq_false in Hne.
      split; [by constructor|].
      apply not_elem_of_cons. split; [congruence | exact IH2].
    + destruct (Hvals name) as [Hne Hfree].
      split; [by constructor|].
      apply not_elem_of_cons. split; [congruence | exact IH2].
Qed.

Lemma split_slash_cons (t : string) :
  exists piece pieces, split_slash t = piece :: pieces.
Proof.
  induction t as [|c t (piece & pieces & IH)]; cbn.
  - by eexists _, _.
  - destruct (decide _); [by eexists _, _|]. rewrite IH. by eexists _, _.
Qed.

Lemma split_slash_append (s t : string) piece pieces :
  slash_free s = true ->
  split_slash t = piece :: pieces ->
  split_slash (s +:+ t) = (s +:+ piece) :: pieces.
Proof.
  intros Hs Ht. induction s as [|c s IH].
  - exact Ht.
  - cbn in Hs. apply andb_true_iff in Hs as [Hc Hs].
    apply negb_true_iff, bool_decide_eq_false in Hc.
    change (split_slash (String c (s +:+ t)) = String c (s +:+ piece) :: pieces).
    cbn [split_slash].
    destruct (decide (String c EmptyString = "/")); [contradiction|].
    by rewrite (IH Hs).
Qed.

Lemma split_slash_slash (t : string) :
  split_slash ("/" +:+ t) = "" :: split_slash t.
Proof. reflexivity. Qed.

Lemma append_empty (s : string) : s +:+ "" = s.
Proof.
  induction s as [|c s IH]; [reflexivity|].
  change (String c (s +:+ "") = String c s). by rewrite IH.
Qed.

Lemma split_slash_join (segs : list string) :
  Forall (fun s => slash_free s = true) segs ->
  split_slash (join_segments segs)
    = match segs with
      | [] => [""]
      | _ => "" :: segs
      end.
Proof.
  induction 1 as [|s segs Hs _ IH]; [reflexivity|].
  cbn [join_segments]. rewrite split_slash_slash. f_equal.
  destruct segs as [|s' segs].
  - cbn [join_segments].
    rewrite (split_slash_append s "" "" [] Hs eq_refl).
    by rewrite append_empty.
  - rewrite (split_slash_append s _ "" (s' :: segs) Hs IH).
    by rewrite append_empty.
Qed.

Lemma drop_trailing_empty_id (segs : list string) :
  "" ∉ segs -> drop_trailing_empty segs = segs.
Proof.
  intros H. unfold drop_trailing_empty.
  destruct (last segs) as [s|] eqn:Hlast; [|reflexivity].
  destruct s; [|reflexivity].
  exfalso. apply H. apply last_Some in Hlast as [l' ->].
  apply elem_of_app. right. apply list_elem_of_here.
Qed.

(** A path is read back as the segments it was written from. *)
Lemma segments_path_of (segs : list string) :
  Forall (fun s => slash_free s = true) segs ->
  "" ∉ segs ->
  segments (path_of segs) = segs.
Proof.
  intros Hfree Hne. unfold segments, path_of.
  destruct segs as [|s segs]; [reflexivity|].
  rewrite (split_slash_join _ Hfree). cbn [drop_leading_empty].
  by apply drop_trailing_empty_id.
Qed.

(** In a list without conflicts, two layers that accept the same request
    are one. *)
Lemma unambiguous_sound layers :
  unambiguous layers = true ->
  forall i j l1 l2 verb segs,
    layers !! i = Some l1 -> layers !! j = Some l2 ->
    handles l1 verb segs = true -> handles l2 verb segs = true ->
    i = j.
Proof.
  induction layers as [|l layers IH]; intros Hu i j l1 l2 verb segs Hi Hj H1 H2.
  - discriminate.
  - cbn in Hu. apply andb_true_iff in Hu as [Hl Hu].
    rewrite forallb_forall in Hl.
    destruct i as [|i], j as [|j]; cbn in Hi, Hj.
    + reflexivity.
    + injection Hi as ->. exfalso.
      assert (In l2 layers) as Hin.
      { apply list_elem_of_In. by apply list_elem_of_lookup_2 with j. }
      specialize (Hl l2 Hin).
      by rewrite (handles_conflict l1 l2 verb segs H1 H2) in Hl.
    + injection Hj as ->. exfalso.
      assert (In l1 layers) as Hin.
      { apply list_elem_of_In. by apply list_elem_of_lookup_2 with i. }
      specialize (Hl l1 Hin).
      by rewrite (handles_conflict l2 l1 verb segs H2 H1) in Hl.
    + f_equal. by apply (IH Hu i j l1 l2 verb segs).
Qed.

Lemma dispatch_segments_unique layers verb segs l :
  unambiguous layers = true ->
  l ∈ layers ->
  handles l verb segs = true ->
  dispatch_segments layers verb segs = Some l.
Proof.
  intros Hu Hin Hl. unfold dispatch_segments.
  destruct (List.find (fun l0 => handles l0 verb segs) layers) as [l'|] eqn:Hf.
  - apply find_some in Hf as [Hin' Hl'].
    apply list_elem_of_In in Hin'.
    apply list_elem_of_lookup in Hin as [i Hi], Hin' as [j Hj].
    assert (i = j) as -> by exact (unambiguous_sound _ Hu _ _ _ _ _ _ Hi Hj Hl Hl').
    congruence.
  - apply list_elem_of_In in Hin.
    by rewrite (find_none _ _ Hf l Hin) in Hl.
Qed.

Lemma dispatch_segments_none layers verb segs :
  (forall l, l ∈ layers -> handles l verb segs = false) ->
  dispatch_segments layers verb segs = None.
Proof.
  intros H. unfold dispatch_segments.
  destruct (List.find _ layers) as [l|] eqn:Hf; [|reflexivity].
  apply find_some in Hf as [Hin Hl]. apply list_elem_of_In in Hin.
  by rewrite (H l Hin) in Hl.
Qed.

Lemma find_app_first {A} (f : A -> bool) (l1 l2 : list A) :
  List.find f (l1 ++ l2)
    = match List.find f l1 with
      | Some x => Some x
      | None => List.find f l2
      end.
Proof.
  induction l1 as [|a l1 IH]; [reflexivity|].
  cbn. destruct (f a); [reflexivity | exact IH].
Qed.

(** Registering the same layers again changes nothing for a request. *)
Lemma dispatch_segments_repeat layers verb segs n :
  dispatch_segments (layers ++ concat (replicate n layers)) verb segs
    = dispatch_segments layers verb segs.
Proof.
  unfold dispatch_segments. induction n as [|n IH]; cbn.
  - by rewrite app_nil_r.
  - rewrite find_app_first.
    destruct (List.find _ layers) as [l|] eqn:Hf; [reflexivity|].
    exact IH.
Qed.

End RoutingFacts.

Section LoaderFacts.

Variables TaxInclusivePricingFeatureFlag_key PublishableAPIKeysFeatureFlag_key : string.
Variables defaultAdminProductFields defaultAdminProductRelations : list string.

Abbreviation price_lists_loader :=
  (PriceLists.loader TaxInclusivePricingFeatureFlag_key
     defaultAdminProductFields defaultAdminProductRelations).
Abbreviation price_lists_load_all :=
  (PriceLists.load_all TaxInclusivePricingFeatureFlag_key
     defaultAdminProductFields defaultAdminProductRelations).

Abbreviation price_list_layers :=
  (PriceLists.layers TaxInclusivePricingFeatureFlag_key
     defaultAdminProductFields defaultAdminProductRelations).
Abbreviation api_key_layers :=
  (PublishableApiKeys.layers PublishableAPIKeysFeatureFlag_key).

Lemma loader_route app featureFlagRouter (m : PriceLists.ModuleState) :
  PriceLists.route (price_lists_loader app featureFlagRouter m).2
    = PriceLists.route m ++ price_list_layers.
Proof.
  unfold PriceLists.loader.
  destruct (featureFlagRouter TaxInclusivePricingFeatureFlag_key); cbn;
    by rewrite <- !app_assoc.
Qed.

Lemma loader_fields app featureFlagRouter (m : PriceLists.ModuleState) :
  PriceLists.defaultAdminPriceListFields (price_lists_loader app featureFlagRouter m).2
    = PriceLists.defaultAdminPriceListFields m
      ++ (if featureFlagRouter TaxInclusivePricingFeatureFlag_key
          then ["includes_tax"] else []).
Proof.
  unfold PriceLists.loader.
  destruct (featureFlagRouter TaxInclusivePricingFeatureFlag_key); cbn;
    [reflexivity | by rewrite app_nil_r].
Qed.

Lemma loader_app app featureFlagRouter (m : PriceLists.ModuleState) :
  (price_lists_loader app featureFlagRouter m).1
    = app ++ [("/price-lists", [router price_lists_route])].
Proof. reflexivity. Qed.

Lemma price_list_layers_unambiguous : unambiguous price_list_layers = true.
Proof. vm_compute. reflexivity. Qed.

Lemma api_key_layers_unambiguous : unambiguous api_key_layers = true.
Proof. vm_compute. reflexivity. Qed.

Lemma price_list_layers_shape l :
  l ∈ price_list_layers ->
  literals_plain (compile (layer_path l)) = true /\
  (length (compile (layer_path l)) <= 4)%nat.
Proof.
  unfold PriceLists.layers. cbn.
  intros H. repeat (apply elem_of_cons in H as [->|H]);
    [split; [reflexivity | vm_compute; lia].. |].
  by apply elem_of_nil in H.
Qed.

Lemma api_key_layers_shape l :
  l ∈ api_key_layers ->
  literals_plain (compile (layer_path l)) = true /\
  (length (compile (layer_path l)) <= 3)%nat.
Proof.
  unfold PublishableApiKeys.layers. cbn.
  intros H. repeat (apply elem_of_cons in H as [->|H]);
    [split; [reflexivity | vm_compute; lia].. |].
  by apply elem_of_nil in H.
Qed.

(** X8. In the price-list router and in the API-key router, a request is
    dispatched to the layer that accepts it: no two registered routes accept
    the same verb and path, so the order of registration decides nothing. *)
Theorem routes_do_not_shadow (layers : list Layer) verb (p : string) l :
  layers = price_list_layers \/ layers = api_key_layers ->
  l ∈ layers ->
  handles l verb (segments p) = true ->
  dispatch layers verb p = Some l.
Proof.
  intros Hlayers Hin Hl. unfold dispatch.
  apply dispatch_segments_unique; [|exact Hin|exact Hl].
  destruct Hlayers as [-> | ->];
    [apply price_list_layers_unambiguous | apply api_key_layers_unambiguous].
Qed.


Lemma load_all_route flagRouters : forall app (m : PriceLists.ModuleState),
  PriceLists.route (price_lists_load_all flagRouters app m).2
    = PriceLists.route m
      ++ concat (replicate (length flagRouters) price_list_layers).
Proof.
  induction flagRouters as [|f rest IH]; intros app m; cbn [PriceLists.load_all].
  - cbn. by rewrite app_nil_r.
  - destruct (price_lists_loader app f m) as [app' m'] eqn:Hl.
    rewrite IH. cbn.
    assert (PriceLists.route m' = PriceLists.route m ++ price_list_layers) as ->.
    { change m' with (app', m').2. rewrite <- Hl. apply loader_route. }
    by rewrite <- app_assoc.
Qed.

(** X11. Calling the price-list loader again, any number of times and with
    any flag routers, registers its routes again on the one shared router and
    changes nothing for requests: each is dispatched as after the first
    call. *)
Theorem reloading_keeps_dispatch
    (first : FlagRouter) (others : list FlagRouter) (app : App) verb (p : string) :
  dispatch
    (PriceLists.route (price_lists_load_all (first :: others) app PriceLists.fresh_module).2)
    verb p
  = dispatch (PriceLists.route (price_lists_loader app first PriceLists.fresh_module).2)
      verb p.
Proof.
  unfold dispatch. rewrite load_all_route, loader_route.
  change (PriceLists.route PriceLists.fresh_module) with (@nil Layer).
  rewrite !app_nil_l. cbn [length replicate concat].
  apply dispatch_segments_repeat.
Qed.

(** X12. The loader appends [includes_tax] to the shared array
    [defaultAdminPriceListFields] at every call whose flag router has
    tax-inclusive pricing enabled, and mounts the router at every call: after
    any sequence of calls the array is what it was, followed by one
    [includes_tax] per enabled call, and the application has one more mount
    of [/price-lists] per call. *)
Theorem loader_accumulates
    (flagRouters : list FlagRouter) (app : App) (m : PriceLists.ModuleState) :
  let enabled :=
    List.filter (fun f : FlagRouter => f TaxInclusivePricingFeatureFlag_key)
      flagRouters in
  PriceLists.defaultAdminPriceListFields (price_lists_load_all flagRouters app m).2
    = PriceLists.defaultAdminPriceListFields m
      ++ replicate (length enabled) "includes_tax" /\
  (price_lists_load_all flagRouters app m).1
    = app ++ replicate (length flagRouters)
               ("/price-lists", [router price_lists_route]).
Proof.
  revert app m.
  induction flagRouters as [|f rest IH]; intros app m; cbn [PriceLists.load_all].
  - cbn. by rewrite !app_nil_r.
  - destruct (price_lists_loader app f m) as [app' m'] eqn:Hl.
    destruct (IH app' m') as [IHf IHa]. cbn zeta in *.
    assert (m' = (price_lists_loader app f m).2) as Hm by by rewrite Hl.
    assert (app' = (price_lists_loader app f m).1) as Ha by by rewrite Hl.
    split.
    + rewrite IHf, Hm, loader_fields. cbn [List.filter].
      destruct (f TaxInclusivePricingFeatureFlag_key); cbn.
      * by rewrite <- app_assoc.
      * by rewrite app_nil_r.
    + rewrite IHa, Ha, loader_app. cbn. by rewrite <- app_assoc.
Qed.

(** X13. Whatever the default relations of products are, no route of the
    price-list router asks [transformQuery] for the relation
    [variants.prices] by default: the relations it passes are the product
    defaults without that one. *)
Theorem variant_prices_are_never_expanded l plainToClass config relations :
  l ∈ PriceLists.layers TaxInclusivePricingFeatureFlag_key
        defaultAdminProductFields defaultAdminProductRelations ->
  transformQuery plainToClass config ∈ layer_stack l ->
  defaultRelations config = Some relations ->
  ("variants.prices" ∉ relations) /\
  (forall r, r ∈ relations <->
             r ∈ defaultAdminProductRelations /\ r ≠ "variants.prices").
Proof.
  unfold PriceLists.layers. cbn. intros Hin Hstack Hrel.
  assert (relations =
          List.filter (fun r => negb (bool_decide (r = "variants.prices")))
            defaultAdminProductRelations) as ->.
  { repeat (apply elem_of_cons in Hin as [->|Hin]); cbn in Hstack;
      repeat (apply elem_of_cons in Hstack as [Hs|Hstack];
              [try discriminate; injection Hs as -> ->; cbn in Hrel;
               try discriminate; by injection Hrel as <-|]);
      try by apply elem_of_nil in Hstack.
    by apply elem_of_nil in Hin. }
  assert (forall r,
    r ∈ List.filter (fun r => negb (bool_decide (r = "variants.prices")))
          defaultAdminProductRelations <->
    r ∈ defaultAdminProductRelations /\ r ≠ "variants.prices") as Hfilter.
  { intros r. rewrite !list_elem_of_In, filter_In.
    rewrite negb_true_iff, bool_decide_eq_false. reflexivity. }
  split; [|exact Hfilter].
  intros H. apply Hfilter in H as [_ H]. by apply H.
Qed.

End LoaderFacts.

Lemma handler_throws_what_complete_throws_witness :
  let req := Samples.request (Some "key_1") in
  let s := mkHandlerState tt fresh_response [] in
  let key := mkIdempotencyKey "key_1" "POST" "/store/carts/cart_1/complete" tt
               started None None None in
  initialize Samples.throwing_scope req (world s) = (returned key, tt) /\
  complete Samples.throwing_scope (params_id req) key (request_context req) tt
    = (thrown "payment provider timeout", tt) /\
  exists s',
    handler Samples.throwing_scope req s
      = (thrown "payment provider timeout", s') /\
    statusCode (res s') = 200 /\
    payload (res s') = None /\
    world s' = tt.
Proof.
  split; [reflexivity|]. split; [reflexivity|].
  apply (handler_throws_what_complete_throws _ _ _ _ _ Samples.throwing_scope
           (Samples.request (Some "key_1"))
           (mkHandlerState tt fresh_response [])
           (mkIdempotencyKey "key_1" "POST" "/store/carts/cart_1/complete" tt
              started None None None) tt "payment provider timeout" tt);
    reflexivity.
Defined.

Lemma handler_answers_when_it_returns_witness :
  let req := Samples.request None in
  let s := mkHandlerState tt fresh_response [] in
  let s' := (handler Samples.conflicting_scope req s).2 in
  handler Samples.conflicting_scope req s = (returned tt, s') /\
  statusCode (res s') = 409.
Proof.
  split; [reflexivity|].
  destruct (handler_answers_when_it_returns _ _ _ _ _ Samples.conflicting_scope
              (Samples.request None) (mkHandlerState tt fresh_response [])
              (handler Samples.conflicting_scope (Samples.request None)
                 (mkHandlerState tt fresh_response [])).2 eq_refl)
    as [[H _]|(key & w' & r & Hi & _)].
  - exact H.
  - discriminate Hi.
Defined.

Lemma routes_do_not_shadow_witness :
  let layers := PriceLists.layers "tax_inclusive_pricing" [] [] in
  let l := mkLayer DELETE "/:id/prices/batch" [wrap "./delete-prices-batch"] in
  l ∈ layers /\
  handles l DELETE (segments "/pl_1/prices/batch") = true /\
  dispatch layers DELETE "/pl_1/prices/batch" = Some l.
Proof.
  assert (mkLayer DELETE "/:id/prices/batch" [wrap "./delete-prices-batch"]
            ∈ PriceLists.layers "tax_inclusive_pricing" [] []) as Hin.
  { by apply list_elem_of_lookup_2 with 8%nat. }
  split; [exact Hin|]. split; [reflexivity|].
  apply (routes_do_not_shadow "tax_inclusive_pricing" "publishable_api_keys"
           [] []);
    [left; reflexivity | exact Hin | reflexivity].
Defined.


Lemma variant_prices_are_never_expanded_witness :
  let relations := ["variants"; "variants.prices"; "sales_channels"] in
  let config :=
    mkQueryConfig (Some ["id"]) (Some ["variants"; "sales_channels"])
      (Some 50) (Some true) in
  let l :=
    mkLayer GET "/:id/products"
      [transformQuery "AdminGetPriceListsPriceListProductsParams" config;
       wrap "./list-price-list-products"] in
  l ∈ PriceLists.layers "tax_inclusive_pricing" ["id"] relations /\
  transformQuery "AdminGetPriceListsPriceListProductsParams" config
    ∈ layer_stack l /\
  ("variants.prices" ∉ ["variants"; "sales_channels"]) /\
  (forall r, r ∈ ["variants"; "sales_channels"] <->
             r ∈ relations /\ r ≠ "variants.prices").
Proof.
  assert (mkLayer GET "/:id/products"
            [transformQuery "AdminGetPriceListsPriceListProductsParams"
               (mkQueryConfig (Some ["id"]) (Some ["variants"; "sales_channels"])
                  (Some 50) (Some true));
             wrap "./list-price-list-products"]
          ∈ PriceLists.layers "tax_inclusive_pricing" ["id"]
              ["variants"; "variants.prices"; "sales_channels"]) as Hin.
  { by apply list_elem_of_lookup_2 with 2%nat. }
  assert (transformQuery "AdminGetPriceListsPriceListProductsParams"
            (mkQueryConfig (Some ["id"]) (Some ["variants"; "sales_channels"])
               (Some 50) (Some true))
          ∈ [transformQuery "AdminGetPriceListsPriceListProductsParams"
               (mkQueryConfig (Some ["id"]) (Some ["variants"; "sales_channels"])
                  (Some 50) (Some true));
             wrap "./list-price-list-products"]) as Hstack.
  { by apply list_elem_of_lookup_2 with 0%nat. }
  split; [exact Hin|]. split; [exact Hstack|].
  apply (variant_prices_are_never_expanded "tax_inclusive_pricing" ["id"]
           ["variants"; "variants.prices"; "sales_channels"] _ _ _ _
           Hin Hstack eq_refl).
Defined.
